(** * A 2D binary space partition of wall segments (bamn, src/main.rs)

    Shallow embedding of the geometry primitives ([Wall::new],
    [Wall::intersection], [Wall::splice], [Wall::in_front],
    [Wall::in_front_point]), of the partition builder [Map::tree_create] and
    of the traversal [BSPTree::get_render_order] / [get_render_walls].

    Coordinates are [f64] in the source; they are modelled by Rocq's
    primitive binary64 floats, so every arithmetic operation below rounds
    exactly as the compiled program does. *)

From Stdlib Require Import String Ascii.
From Stdlib Require Import Floats ZArith List Permutation Bool Lia.
Import ListNotations.

#[local] Set Warnings "-register-all -inexact-float".

Open Scope float_scope.

(** ** Data model *)

(** [nalgebra::Vector2<f64>] *)
Record Vector2 := V2 { x : float; y : float }.

(** [struct Wall { p1, p2, forward }] *)
Record Wall := MkWall { p1 : Vector2; p2 : Vector2; forward : Vector2 }.

(** [struct BSPTree { behind: Box<Option<BSPTree>>, front: Box<Option<BSPTree>>,
    segment: Wall }] *)
Inductive BSPTree :=
  MkBSPTree { behind : option BSPTree; front : option BSPTree; segment : Wall }.

(** ** Vector arithmetic, componentwise as in nalgebra *)

Definition vadd (a b : Vector2) : Vector2 := V2 (x a + x b) (y a + y b).
Definition vsub (a b : Vector2) : Vector2 := V2 (x a - x b) (y a - y b).
Definition vdiv (a : Vector2) (k : float) : Vector2 := V2 (x a / k) (y a / k).

(** [a.dot(&b)]: nalgebra accumulates the products into a zero-initialised
    sum; adding that leading zero only changes the sign of a zero result,
    which no caller can observe (they only test [> 0.0]). *)
Definition dot (a b : Vector2) : float := x a * x b + y a * y b.

(** ** Geometry primitives *)

(** [Wall::new]: [forward = (0,0,1) x (p2 - p1 lifted to 3D)], the 3D cross
    product [(a.y*b.z - a.z*b.y, a.z*b.x - a.x*b.z, _)] with [a = (0,0,1)],
    then projected back to 2D. The constructor has no failure path. *)
Definition Wall_new (q1 q2 : Vector2) : Wall :=
  let bx := x q2 - x q1 in
  let by_ := y q2 - y q1 in
  let bz := 0 - 0 in
  let fwd := V2 (0 * bz - 1 * by_) (1 * bx - 0 * bz) in
  MkWall q1 q2 fwd.

(** The denominator of [Wall::intersection]. *)
Definition denominator (self plane : Wall) : float :=
  let x1 := x (p1 self) in let y1 := y (p1 self) in
  let x2 := x (p2 self) in let y2 := y (p2 self) in
  let x3 := x (p1 plane) in let y3 := y (p1 plane) in
  let x4 := x (p2 plane) in let y4 := y (p2 plane) in
  (x1 - x2) * (y3 - y4) - (y1 - y2) * (x3 - x4).

(** The parameter [t] along [self]. *)
Definition param_t (self plane : Wall) : float :=
  let x1 := x (p1 self) in let y1 := y (p1 self) in
  let x3 := x (p1 plane) in let y3 := y (p1 plane) in
  let x4 := x (p2 plane) in let y4 := y (p2 plane) in
  ((x1 - x3) * (y3 - y4) - (y1 - y3) * (x3 - x4)) / denominator self plane.

(** The parameter [u] along [plane]; the source computes it and never uses it. *)
Definition param_u (self plane : Wall) : float :=
  let x1 := x (p1 self) in let y1 := y (p1 self) in
  let x2 := x (p2 self) in let y2 := y (p2 self) in
  let x3 := x (p1 plane) in let y3 := y (p1 plane) in
  - ((x1 - x2) * (y1 - y3) - (y1 - y2) * (x1 - x3)) / denominator self plane.

(** [Wall::intersection] *)
Definition intersection (self plane : Wall) : option Vector2 :=
  let x1 := x (p1 self) in let y1 := y (p1 self) in
  let x2 := x (p2 self) in let y2 := y (p2 self) in
  let den := denominator self plane in
  if (den <? 0.001) && (- 0.001 <? den) then None
  else
    let t := param_t self plane in
    if (0 <? t) && (t <? 1) then Some (V2 (x1 + t * (x2 - x1)) (y1 + t * (y2 - y1)))
    else None.

(** [Wall::splice]: the two halves copy the parent's [forward]. *)
Definition splice (self : Wall) (point : Vector2) : Wall * Wall :=
  (MkWall (p1 self) point (forward self), MkWall point (p2 self) (forward self)).

(** [Wall::in_front] *)
Definition in_front (self wall : Wall) : bool :=
  let center := vdiv (vadd (p1 wall) (p2 wall)) 2 in
  let diff := vsub center (p1 self) in
  0 <? dot diff (forward self).

(** [Wall::in_front_point] *)
Definition in_front_point (self : Wall) (point : Vector2) : bool :=
  let diff := vsub point (p1 self) in
  0 <? dot diff (forward self).

(** ** Partition builder ([Map::tree_create]) *)

(** The first loop of [tree_create]: every wall after the pivot is pushed
    whole, or as its two spliced halves when it meets the pivot's line. *)
Fixpoint splice_all (slice_plane : Wall) (walls : list Wall) : list Wall :=
  match walls with
  | [] => []
  | wall :: rest =>
      match intersection wall slice_plane with
      | Some i => let (a, b) := splice wall i in a :: b :: splice_all slice_plane rest
      | None => wall :: splice_all slice_plane rest
      end
  end.

(** The second loop: [(front, back)], each in the order of [new_walls]. *)
Fixpoint classify (slice_plane : Wall) (new_walls : list Wall) : list Wall * list Wall :=
  match new_walls with
  | [] => ([], [])
  | wall :: rest =>
      let (fr, bk) := classify slice_plane rest in
      if in_front slice_plane wall then (wall :: fr, bk) else (fr, wall :: bk)
  end.

(** [Map::tree_create]. Its recursion is not structural (the sublists may
    be longer than their parent list), so it is run on a budget of nested
    calls: [None] means the budget ran out, [Some r] is the source's
    result [r : Option<BSPTree>]. The [behind] subtree is built first, as in
    the source. *)
Fixpoint tree_create (fuel : nat) (walls : list Wall) : option (option BSPTree) :=
  match fuel with
  | O => None
  | S fuel' =>
      match walls with
      | [] => Some None
      | [w] => Some (Some (MkBSPTree None None w))
      | slice_plane :: rest =>
          let (fr, bk) := classify slice_plane (splice_all slice_plane rest) in
          match tree_create fuel' bk with
          | None => None
          | Some behind_t =>
              match tree_create fuel' fr with
              | None => None
              | Some front_t => Some (Some (MkBSPTree behind_t front_t slice_plane))
              end
          end
      end
  end.

(** ** Traversal ([BSPTree::get_render_walls], [get_render_order]) *)

(** [get_render_walls] on a present node; [out] is the vector pushed to. *)
Fixpoint render_node (t : BSPTree) (out : list Wall) (camera_pos : Vector2) : list Wall :=
  match t with
  | MkBSPTree bh fr seg =>
      let walk o acc := match o with None => acc | Some t' => render_node t' acc camera_pos end in
      if negb (in_front_point seg camera_pos)
      then walk bh (walk fr out ++ [seg])
      else walk fr (walk bh out ++ [seg])
  end.

Definition get_render_walls (node : option BSPTree) (out : list Wall) (camera_pos : Vector2)
  : list Wall :=
  match node with None => out | Some t => render_node t out camera_pos end.

Definition get_render_order (t : BSPTree) (camera_pos : Vector2) : list Wall :=
  get_render_walls (Some t) [] camera_pos.

(** [get_render_walls] with every call, also the immediate return on an
    absent child, taking one frame of a call budget: [None] when the budget
    is exhausted. *)
Fixpoint render_fuel (fuel : nat) (node : option BSPTree) (out : list Wall)
    (camera_pos : Vector2) : option (list Wall) :=
  match fuel with
  | O => None
  | S fuel' =>
      match node with
      | None => Some out
      | Some (MkBSPTree bh fr seg) =>
          if negb (in_front_point seg camera_pos) then
            match render_fuel fuel' fr out camera_pos with
            | None => None
            | Some o => render_fuel fuel' bh (o ++ [seg]) camera_pos
            end
          else
            match render_fuel fuel' bh out camera_pos with
            | None => None
            | Some o => render_fuel fuel' fr (o ++ [seg]) camera_pos
            end
      end
  end.

(** ** Tree measures *)

Open Scope nat_scope.

Fixpoint segments (t : BSPTree) : list Wall :=
  match t with
  | MkBSPTree bh fr seg =>
      let segs o := match o with None => [] | Some t' => segments t' end in
      seg :: segs bh ++ segs fr
  end.

Fixpoint size (t : BSPTree) : nat :=
  match t with
  | MkBSPTree bh fr _ =>
      let sz o := match o with None => 0 | Some t' => size t' end in
      S (sz bh + sz fr)
  end.

Fixpoint height (t : BSPTree) : nat :=
  match t with
  | MkBSPTree bh fr _ =>
      let ht o := match o with None => 0 | Some t' => height t' end in
      S (Nat.max (ht bh) (ht fr))
  end.

Definition opt_height (o : option BSPTree) : nat :=
  match o with None => 0 | Some t => height t end.

Definition opt_segments (o : option BSPTree) : list Wall :=
  match o with None => [] | Some t => segments t end.

Definition opt_size (o : option BSPTree) : nat :=
  match o with None => 0 | Some t => size t end.

(** Number of walls of [walls] that the pivot's line splits. *)
Fixpoint count_splits (slice_plane : Wall) (walls : list Wall) : nat :=
  match walls with
  | [] => 0
  | wall :: rest =>
      match intersection wall slice_plane with
      | Some _ => S (count_splits slice_plane rest)
      | None => count_splits slice_plane rest
      end
  end.

(** ** Traversal: which side of each node a viewer is on *)

(** [sides_agree r t c1 c2]: at every node of [t], the side test of viewer
    [c1] and that of viewer [c2] are related by [r]. *)
Fixpoint sides_agree (r : bool -> bool -> bool) (t : BSPTree) (c1 c2 : Vector2) : bool :=
  match t with
  | MkBSPTree bh fr seg =>
      let sub o := match o with None => true | Some t' => sides_agree r t' c1 c2 end in
      r (in_front_point seg c1) (in_front_point seg c2) && sub bh && sub fr
  end.

(** ** Map loading ([Map::from_file], [Map::generate_tree]) *)

(** [struct Map { walls: Vec<Wall> }] *)
Record Map := MkMap { walls : list Wall }.

(** [Map::generate_tree] *)
Definition generate_tree (fuel : nat) (m : Map) : option (option BSPTree) :=
  tree_create fuel (walls m).

(** [str::split(' ')]: the fields between single spaces, empty ones
    included; a string without a space is one field. Strings are byte
    strings; a space byte never occurs inside a multi-byte UTF-8 character,
    so splitting bytewise is splitting on the character. *)
Fixpoint split_space_aux (s cur : string) : list string :=
  match s with
  | EmptyString => [cur]
  | String c rest =>
      if Ascii.eqb c " "%char then cur :: split_space_aux rest EmptyString
      else split_space_aux rest (cur ++ String c EmptyString)%string
  end.

Definition split_space (s : string) : list string := split_space_aux s EmptyString.

(** Decimal digits of [usize::from_str], failing on a non-digit or when the
    value leaves the 64-bit range. *)
Fixpoint usize_digits (s : string) (acc : N) : option N :=
  match s with
  | EmptyString => Some acc
  | String c rest =>
      let d := (N.of_nat (Ascii.nat_of_ascii c) - 48)%N in
      if ((48 <=? N.of_nat (Ascii.nat_of_ascii c)) && (N.of_nat (Ascii.nat_of_ascii c) <=? 57))%N
      then
        let acc' := (acc * 10 + d)%N in
        if (acc' <? 2 ^ 64)%N then usize_digits rest acc' else None
      else None
  end.

(** [str::parse::<usize>]: an empty string, or a lone sign, is an error; a
    leading [+] is skipped; then only digits. *)
Definition parse_usize (s : string) : option N :=
  match s with
  | EmptyString => None
  | String "+"%char EmptyString => None
  | String "+"%char rest => usize_digits rest 0
  | _ => usize_digits s 0
  end.

(** [.map(|x| x.parse().unwrap()).collect::<Vec<_>>()]: every field is
    parsed, and the first failure panics ([None]). *)
Fixpoint parse_all {A} (parse : string -> option A) (fields : list string) : option (list A) :=
  match fields with
  | [] => Some []
  | f :: rest =>
      match parse f with
      | None => None
      | Some a => match parse_all parse rest with None => None | Some l => Some (a :: l) end
      end
  end.

(** [verticies[i - 1]] for a [usize] index [i]: [0 - 1] overflows and a
    too large index is out of bounds; both panic. *)
Definition vertex_at (verticies : list Vector2) (i : N) : option Vector2 :=
  if (i =? 0)%N then None else nth_error verticies (N.to_nat (i - 1)).

Section Loader.

(** [str::parse::<f64>] (the standard library's decimal to binary64
    conversion) is a parameter of the loader. *)
Variable parse_f64 : string -> option float.

(** A line before the [walls] marker: its first two numbers are a vertex. *)
Definition parse_vertex (line : string) : option Vector2 :=
  match parse_all parse_f64 (split_space line) with
  | Some (c0 :: c1 :: _) => Some (V2 c0 c1)
  | _ => None
  end.

(** A line after the marker: two 1-based vertex indices make a wall. *)
Definition parse_wall (verticies : list Vector2) (line : string) : option Wall :=
  match parse_all parse_usize (split_space line) with
  | Some (i0 :: i1 :: _) =>
      match vertex_at verticies i0, vertex_at verticies i1 with
      | Some a, Some b => Some (Wall_new a b)
      | _, _ => None
      end
  | _ => None
  end.

(** The loop state of [from_file]: [out], [verticies] and the flag [walls]. *)
Record LoadState := MkLoadState { out : Map; verticies : list Vector2; walls_seen : bool }.

(** One iteration of the loop over the lines. *)
Definition load_line (st : LoadState) (line : string) : option LoadState :=
  if negb (walls_seen st) then
    if String.eqb line "walls" then Some (MkLoadState (out st) (verticies st) true)
    else
      match parse_vertex line with
      | None => None
      | Some v => Some (MkLoadState (out st) (verticies st ++ [v]) false)
      end
  else
    match parse_wall (verticies st) line with
    | None => None
    | Some w => Some (MkLoadState (MkMap (walls (out st) ++ [w])) (verticies st) true)
    end.

Fixpoint load_lines (st : LoadState) (lines : list string) : option LoadState :=
  match lines with
  | [] => Some st
  | line :: rest => match load_line st line with None => None | Some st' => load_lines st' rest end
  end.

(** [Map::from_file] on the lines [reader.lines()] yields (reading the file
    and splitting it into lines are outside the model); [None] is a panic. *)
Definition from_lines (lines : list string) : option Map :=
  match load_lines (MkLoadState (MkMap []) [] false) lines with
  | None => None
  | Some st => Some (out st)
  end.

End Loader.

(** ** Concrete inputs *)

Open Scope float_scope.

(** A pivot on the line [x + y = -1] and a wall ending (up to the rounding
    of its decimal coordinates) on that line. *)
Definition pivot_c7 : Wall := Wall_new (V2 (-3) 2) (V2 (-2) 1).
Definition wall_c7 : Wall := Wall_new (V2 2 (-1)) (V2 (-2.9) 1.9).

(** A horizontal wall through the origin and a vertical wall above it. *)
Definition seg_a : Wall := Wall_new (V2 (-1) 0) (V2 1 0).
Definition seg_b : Wall := Wall_new (V2 0 1) (V2 0 2).

(** The x axis as a pivot, and a wall on it. *)
Definition axis : Wall := Wall_new (V2 0 0) (V2 1 0).
Definition on_axis : Wall := Wall_new (V2 2 0) (V2 3 0).

(** A stand-in for [str::parse::<f64>] that reads the strings 0, 1 and 2,
    for running the loader on concrete files. *)
Definition small_f64 (s : string) : option float :=
  if String.eqb s "0" then Some 0%float
  else if String.eqb s "1" then Some 1%float
  else if String.eqb s "2" then Some 2%float
  else None.

Open Scope nat_scope.

(** ** Traversal: accumulator lemmas *)

Lemma render_node_acc : forall t out camera_pos,
  render_node t out camera_pos = out ++ render_node t [] camera_pos.
Proof.
  fix IH 1.
  intros [bh fr seg] out camera_pos; simpl.
  destruct (negb (in_front_point seg camera_pos)), bh as [b|], fr as [f|];
    repeat match goal with
    | |- context [render_node ?t ?acc camera_pos] =>
        lazymatch acc with [] => fail | _ => rewrite (IH t acc) end
    end;
    simpl; rewrite <- ?app_assoc; reflexivity.
Qed.

Lemma get_render_walls_acc : forall o out camera_pos,
  get_render_walls o out camera_pos = out ++ get_render_walls o [] camera_pos.
Proof.
  intros [t|] out camera_pos; simpl.
  - apply render_node_acc.
  - rewrite app_nil_r; reflexivity.
Qed.

(** One step of the traversal, written with fresh output vectors. *)
Lemma render_node_unfold : forall bh fr seg camera_pos,
  render_node (MkBSPTree bh fr seg) [] camera_pos =
  if negb (in_front_point seg camera_pos)
  then get_render_walls fr [] camera_pos ++ [seg] ++ get_render_walls bh [] camera_pos
  else get_render_walls bh [] camera_pos ++ [seg] ++ get_render_walls fr [] camera_pos.
Proof.
  intros bh fr seg camera_pos.
  change (render_node (MkBSPTree bh fr seg) [] camera_pos) with
    (if negb (in_front_point seg camera_pos)
     then get_render_walls bh (get_render_walls fr [] camera_pos ++ [seg]) camera_pos
     else get_render_walls fr (get_render_walls bh [] camera_pos ++ [seg]) camera_pos).
  destruct (negb (in_front_point seg camera_pos));
    rewrite get_render_walls_acc, <- app_assoc; reflexivity.
Qed.

Lemma render_node_perm : forall t camera_pos,
  Permutation (render_node t [] camera_pos) (segments t).
Proof.
  fix IH 1.
  intros [bh fr seg] camera_pos.
  rewrite render_node_unfold.
  assert (Hb : Permutation (get_render_walls bh [] camera_pos) (opt_segments bh))
    by (destruct bh as [b|]; [apply IH | constructor]).
  assert (Hf : Permutation (get_render_walls fr [] camera_pos) (opt_segments fr))
    by (destruct fr as [f|]; [apply IH | constructor]).
  change (segments (MkBSPTree bh fr seg)) with (seg :: opt_segments bh ++ opt_segments fr).
  destruct (negb (in_front_point seg camera_pos)).
  - rewrite Hb, Hf. simpl.
    apply Permutation_sym, Permutation_cons_app.
    apply Permutation_app_comm.
  - rewrite Hb, Hf. simpl.
    apply Permutation_sym, Permutation_cons_app. reflexivity.
Qed.

Lemma segments_length : forall t, length (segments t) = size t.
Proof.
  fix IH 1.
  intros [bh fr seg]; simpl.
  rewrite length_app.
  destruct bh as [b|], fr as [f|]; simpl; rewrite ?IH; reflexivity.
Qed.

(** ** Partition builder: counting lemmas *)

Lemma splice_all_length : forall slice_plane walls,
  length (splice_all slice_plane walls) = length walls + count_splits slice_plane walls.
Proof.
  intros s walls; induction walls as [|w rest IH]; simpl; [reflexivity|].
  destruct (intersection w s); simpl; rewrite IH; lia.
Qed.

Lemma classify_perm : forall slice_plane new_walls,
  Permutation (fst (classify slice_plane new_walls) ++ snd (classify slice_plane new_walls))
    new_walls.
Proof.
  intros s nw; induction nw as [|w rest IH]; simpl; [constructor|].
  destruct (classify s rest) as [fr bk]; simpl in *.
  destruct (in_front s w); simpl.
  - constructor; exact IH.
  - apply Permutation_sym, Permutation_cons_app, Permutation_sym, IH.
Qed.

Lemma classify_length : forall slice_plane new_walls,
  length (fst (classify slice_plane new_walls)) + length (snd (classify slice_plane new_walls))
  = length new_walls.
Proof.
  intros s nw. rewrite <- length_app. apply Permutation_length, classify_perm.
Qed.

Lemma classify_back : forall slice_plane new_walls wall,
  In wall new_walls -> in_front slice_plane wall = false ->
  In wall (snd (classify slice_plane new_walls)).
Proof.
  intros s nw w; induction nw as [|v rest IH]; simpl; [tauto|].
  intros [<- | Hin] Hf; destruct (classify s rest) as [fr bk] eqn:E; simpl in *.
  - rewrite Hf; simpl; left; reflexivity.
  - destruct (in_front s v); simpl; auto.
Qed.

Lemma render_fuel_ok : forall fuel o out camera_pos,
  opt_height o < fuel -> render_fuel fuel o out camera_pos = Some (get_render_walls o out camera_pos).
Proof.
  induction fuel as [|f IH]; intros o out camera_pos H; [simpl in H; lia|].
  destruct o as [[bh fr seg]|]; [|reflexivity].
  simpl in H.
  change (render_fuel (S f) (Some (MkBSPTree bh fr seg)) out camera_pos) with
    (if negb (in_front_point seg camera_pos) then
       match render_fuel f fr out camera_pos with
       | None => None | Some o => render_fuel f bh (o ++ [seg]) camera_pos end
     else
       match render_fuel f bh out camera_pos with
       | None => None | Some o => render_fuel f fr (o ++ [seg]) camera_pos end).
  change (get_render_walls (Some (MkBSPTree bh fr seg)) out camera_pos) with
    (if negb (in_front_point seg camera_pos)
     then get_render_walls bh (get_render_walls fr out camera_pos ++ [seg]) camera_pos
     else get_render_walls fr (get_render_walls bh out camera_pos ++ [seg]) camera_pos).
  assert (Hb : opt_height bh < f) by (destruct bh; simpl; lia).
  assert (Hf : opt_height fr < f) by (destruct fr; simpl; lia).
  destruct (negb (in_front_point seg camera_pos)); rewrite IH by assumption; apply IH; assumption.
Qed.

Lemma render_fuel_short : forall fuel o out camera_pos,
  fuel <= opt_height o -> render_fuel fuel o out camera_pos = None.
Proof.
  induction fuel as [|f IH]; intros o out camera_pos H; [reflexivity|].
  destruct o as [[bh fr seg]|]; [|simpl in H; lia].
  simpl in H |- *.
  destruct (Nat.max_spec (opt_height bh) (opt_height fr)) as [[Hlt Hm] | [Hle Hm]];
    change (match bh with Some t' => height t' | None => 0 end) with (opt_height bh) in H;
    change (match fr with Some t' => height t' | None => 0 end) with (opt_height fr) in H;
    rewrite Hm in H.
  - destruct (negb (in_front_point seg camera_pos)).
    + rewrite IH by lia. reflexivity.
    + destruct (render_fuel f bh out camera_pos); [apply IH; lia | reflexivity].
  - destruct (negb (in_front_point seg camera_pos)).
    + destruct (render_fuel f fr out camera_pos); [apply IH; lia | reflexivity].
    + rewrite IH by lia. reflexivity.
Qed.

(** ** Float facts, through the bit-level specification [Prim2SF] *)

Lemma Prim2SF_zero : Prim2SF 0%float = S754_zero false.
Proof. vm_compute. reflexivity. Qed.

(** A float equal (as [==]) to zero is not strictly positive. *)
Lemma eqb_zero_not_pos : forall d, (d =? 0)%float = true -> (0 <? d)%float = false.
Proof.
  intros d.
  rewrite FloatAxioms.eqb_spec, FloatAxioms.ltb_spec, Prim2SF_zero.
  destruct (Prim2SF d) as [s|s| |s m e]; unfold SFeqb, SFltb; simpl;
    intros H; try discriminate; try reflexivity.
  - destruct s; discriminate.
  - destruct s; discriminate.
Qed.

(** [SFcompare] on two negative finite floats is the mirror of the
    comparison of their absolute values. *)
Lemma SFcompare_neg_finite : forall m e M E,
  SFcompare (S754_finite true M E) (S754_finite true m e)
  = SFcompare (S754_finite false m e) (S754_finite false M E).
Proof.
  intros m e M E; simpl.
  rewrite (Z.compare_antisym e E).
  destruct (Z.compare e E); simpl; try reflexivity.
  rewrite Pos.compare_cont_antisym. reflexivity.
Qed.

(** [|d| < E] is [d < E && -E < d] for a positive finite [E]. *)
Lemma SFltb_abs : forall f M E,
  SFltb (SFabs f) (S754_finite false M E)
  = SFltb f (S754_finite false M E) && SFltb (S754_finite true M E) f.
Proof.
  intros f M E.
  destruct f as [s|s| |s m e].
  - destruct s; reflexivity.
  - destruct s; reflexivity.
  - reflexivity.
  - cbn [SFabs]. unfold SFltb.
    destruct s.
    + rewrite SFcompare_neg_finite.
      change (SFcompare (S754_finite true m e) (S754_finite false M E)) with (Some Lt).
      destruct (SFcompare (S754_finite false m e) (S754_finite false M E)) as [[| |]|];
        reflexivity.
    + change (SFcompare (S754_finite true M E) (S754_finite false m e)) with (Some Lt).
      destruct (SFcompare (S754_finite false m e) (S754_finite false M E)) as [[| |]|];
        reflexivity.
Qed.

Lemma abs_lt_eps : forall d,
  (abs d <? 0.001)%float = (d <? 0.001)%float && (- 0.001 <? d)%float.
Proof.
  intros d.
  rewrite !FloatAxioms.ltb_spec, abs_spec.
  assert (H : exists M E, Prim2SF 0.001%float = S754_finite false M E
                        /\ Prim2SF (- 0.001)%float = S754_finite true M E)
    by (eexists _, _; split; vm_compute; reflexivity).
  destruct H as (M & E & Hp & Hn).
  rewrite Hp, Hn. apply SFltb_abs.
Qed.

(** A finite float minus itself is [+0]. *)
Lemma sub_self : forall f, is_finite f = true -> (f - f)%float = 0%float.
Proof.
  intros f Hf.
  apply Prim2SF_inj. rewrite sub_spec, Prim2SF_zero.
  unfold is_finite, is_nan, is_infinity in Hf.
  rewrite !FloatAxioms.eqb_spec, abs_spec in Hf.
  assert (Hi : Prim2SF infinity = S754_infinity false) by (vm_compute; reflexivity).
  rewrite Hi in Hf.
  destruct (Prim2SF f) as [s|s| |s m e]; unfold SF64sub, SFsub.
  - destruct s; reflexivity.
  - destruct s; discriminate Hf.
  - discriminate Hf.
  - rewrite Z.sub_diag. reflexivity.
Qed.

(** A float that is a zero of either sign, or NaN. *)
Definition zero_or_nan (g : spec_float) : Prop :=
  match g with S754_zero _ | S754_nan => True | _ => False end.

Lemma sub_self_sf : forall f,
  Prim2SF (f - f)%float = S754_zero false \/ Prim2SF (f - f)%float = S754_nan.
Proof.
  intros f. rewrite sub_spec. unfold SF64sub, SFsub.
  destruct (Prim2SF f) as [s|s| |s m e].
  - left. destruct s; reflexivity.
  - right. destruct s; reflexivity.
  - right. reflexivity.
  - left. rewrite Z.sub_diag. reflexivity.
Qed.

Lemma mul_zero_or_nan : forall a b,
  zero_or_nan (Prim2SF a) -> zero_or_nan (Prim2SF (a * b)%float).
Proof.
  intros a b Ha. rewrite mul_spec. unfold SF64mul, SFmul.
  destruct (Prim2SF a) as [s|s| |s m e]; simpl in Ha; try contradiction;
    destruct (Prim2SF b) as [s'|s'| |s' m' e']; simpl; exact I.
Qed.

Lemma add_zero_or_nan : forall a b,
  zero_or_nan (Prim2SF a) -> zero_or_nan (Prim2SF b) -> zero_or_nan (Prim2SF (a + b)%float).
Proof.
  intros a b Ha Hb. rewrite add_spec. unfold SF64add, SFadd.
  destruct (Prim2SF a) as [s|s| |s m e]; simpl in Ha; try contradiction;
    destruct (Prim2SF b) as [s'|s'| |s' m' e']; simpl in Hb; try contradiction;
    try destruct s; try destruct s'; simpl; exact I.
Qed.

Lemma zero_or_nan_not_pos : forall d, zero_or_nan (Prim2SF d) -> (0 <? d)%float = false.
Proof.
  intros d H. rewrite FloatAxioms.ltb_spec, Prim2SF_zero.
  destruct (Prim2SF d); simpl in H; try contradiction; reflexivity.
Qed.

Lemma SFmul_comm : forall a b, SFmul prec emax a b = SFmul prec emax b a.
Proof.
  intros [s|s| |s m e] [s'|s'| |s' m' e']; unfold SFmul; rewrite ?(xorb_comm s s');
    try reflexivity.
  rewrite Pos.mul_comm, Z.add_comm. reflexivity.
Qed.

Lemma mul_comm_float : forall a b, (a * b)%float = (b * a)%float.
Proof.
  intros a b. apply Prim2SF_inj. rewrite !mul_spec. apply SFmul_comm.
Qed.

Lemma nan_not_lt : forall d c, Prim2SF d = S754_nan -> (d <? c)%float = false.
Proof. intros d c H. rewrite FloatAxioms.ltb_spec, H. reflexivity. Qed.

Lemma div_nan : forall n d, Prim2SF d = S754_nan -> Prim2SF (n / d)%float = S754_nan.
Proof.
  intros n d H. rewrite div_spec, H. unfold SF64div, SFdiv.
  destruct (Prim2SF n); reflexivity.
Qed.

(** * Claims *)

(** ** Traversal *)

(** C1: the render order of a tree is a permutation of the segments stored
    in its nodes (each node's segment exactly once), and its length is the
    number of nodes. *)
Theorem render_order_perm : forall t camera_pos,
  Permutation (get_render_order t camera_pos) (segments t) /\
  length (get_render_order t camera_pos) = size t.
Proof.
  intros t camera_pos.
  assert (H : Permutation (get_render_order t camera_pos) (segments t))
    by apply render_node_perm.
  split; [exact H|].
  rewrite (Permutation_length H). apply segments_length.
Qed.

(** C5: on a node, when the viewer is not in front of its segment the
    traversal emits the front subtree, then the segment, then the back
    subtree; otherwise back, segment, front; an absent subtree emits
    nothing. *)
Theorem render_walls_step : forall camera_pos,
  (forall bh fr seg out,
     get_render_walls (Some (MkBSPTree bh fr seg)) out camera_pos =
     out ++ (if negb (in_front_point seg camera_pos)
             then get_render_walls fr [] camera_pos ++ [seg] ++ get_render_walls bh [] camera_pos
             else get_render_walls bh [] camera_pos ++ [seg] ++ get_render_walls fr [] camera_pos)) /\
  (forall out, get_render_walls None out camera_pos = out).
Proof.
  intros camera_pos. split; [|reflexivity].
  intros bh fr seg out.
  rewrite get_render_walls_acc.
  change (get_render_walls (Some (MkBSPTree bh fr seg)) [] camera_pos)
    with (render_node (MkBSPTree bh fr seg) [] camera_pos).
  rewrite render_node_unfold. reflexivity.
Qed.

(** C8: the traversal is a function of the tree and the viewer only: the
    output pushed onto any vector is that vector followed by the render
    order, so two calls with the same tree and viewer give the same
    sequence. *)
Theorem render_order_deterministic : forall t camera_pos out1 out2,
  get_render_walls (Some t) out1 camera_pos = out1 ++ get_render_order t camera_pos /\
  get_render_walls (Some t) out2 camera_pos = out2 ++ get_render_order t camera_pos.
Proof.
  intros t camera_pos out1 out2.
  split; apply get_render_walls_acc.
Qed.

(** ** Partition builder *)

(** C6: on an empty list the builder returns [None]; on a one-element list
    a leaf holding that wall with both children absent. *)
Theorem tree_create_small : forall fuel w,
  tree_create (S fuel) [] = Some None /\
  tree_create (S fuel) [w] = Some (Some (MkBSPTree None None w)).
Proof. intros fuel w. split; reflexivity. Qed.

(** The builder's sublists are not always shorter than its input: for the
    two walls [pivot_c7; wall_c7], the pivot's line splits [wall_c7] and
    both halves are classified in front, so the front sublist is as long as
    the input list. *)
Lemma sublist_not_shorter :
  length (fst (classify pivot_c7 (splice_all pivot_c7 [wall_c7]))) =
  length [pivot_c7; wall_c7].
Proof. vm_compute. reflexivity. Qed.

(** ** Geometry primitives *)

Open Scope float_scope.

(** C2 (counterexample): splitting the wall (0,0)-(2,0), whose normal is
    (0,2), at (1,0) gives a first half carrying (0,2), while [Wall::new]
    derives (0,1) for (0,0)-(1,0). *)
Lemma splice_normal_not_fresh :
  forward (fst (splice (Wall_new (V2 0 0) (V2 2 0)) (V2 1 0))) <>
  forward (Wall_new (V2 0 0) (V2 1 0)).
Proof.
  intros H.
  pose proof (f_equal (fun v => y v =? 1) H) as E.
  vm_compute in E. discriminate E.
Qed.

(** C2 (amended): the halves of [splice s p] are [(s.p1, p)] and
    [(p, s.p2)], both carrying the parent's stored normal unchanged. *)
Theorem splice_copies_normal : forall s p,
  p1 (fst (splice s p)) = p1 s /\ p2 (fst (splice s p)) = p /\
  forward (fst (splice s p)) = forward s /\
  p1 (snd (splice s p)) = p /\ p2 (snd (splice s p)) = p2 s /\
  forward (snd (splice s p)) = forward s.
Proof. intros s p. repeat split. Qed.

(** C3 (counterexample): constructing a wall from the point (1,1) to
    itself does not fail; it yields a wall whose normal is the zero
    vector. *)
Lemma wall_new_degenerate_zero :
  forward (Wall_new (V2 1 1) (V2 1 1)) = V2 0 0.
Proof. vm_compute. reflexivity. Qed.

(** C3 (amended): wall construction never fails; for coincident endpoints
    with finite coordinates the normal is the zero vector (0,0). *)
Theorem wall_new_coincident : forall p,
  is_finite (x p) = true -> is_finite (y p) = true ->
  Wall_new p p = MkWall p p (V2 0 0).
Proof.
  intros [px py] Hx Hy; simpl in Hx, Hy.
  unfold Wall_new; simpl.
  rewrite (sub_self px Hx), (sub_self py Hy).
  reflexivity.
Qed.

Lemma wall_new_coincident_witness :
  is_finite 1 = true /\ Wall_new (V2 1 1) (V2 1 1) = MkWall (V2 1 1) (V2 1 1) (V2 0 0).
Proof.
  split; [vm_compute; reflexivity|].
  apply (wall_new_coincident (V2 1 1)); vm_compute; reflexivity.
Defined.

(** C4: [intersection a b] is absent when the determinant's magnitude is
    below 0.001; otherwise it is [a.p1 + t (a.p2 - a.p1)] when the parameter
    [t] along [a] lies strictly between 0 and 1, and absent otherwise. *)
Theorem intersection_spec : forall a b,
  intersection a b =
  if abs (denominator a b) <? 0.001 then None
  else
    let t := param_t a b in
    if (0 <? t) && (t <? 1)
    then Some (V2 (x (p1 a) + t * (x (p2 a) - x (p1 a))) (y (p1 a) + t * (y (p2 a) - y (p1 a))))
    else None.
Proof.
  intros a b. unfold intersection.
  rewrite abs_lt_eps. reflexivity.
Qed.

(** C9: a wall whose midpoint has a zero dot product with the pivot's
    normal is not in front of the pivot and is put in the back list by the
    classification loop; a viewer point with a zero dot product is not in
    front either. *)
Theorem on_line_is_back : forall s,
  (forall w,
     (dot (vsub (vdiv (vadd (p1 w) (p2 w)) 2) (p1 s)) (forward s) =? 0) = true ->
     in_front s w = false /\
     (forall new_walls, In w new_walls -> In w (snd (classify s new_walls)))) /\
  (forall p, (dot (vsub p (p1 s)) (forward s) =? 0) = true -> in_front_point s p = false).
Proof.
  intros s. split.
  - intros w H.
    assert (Hf : in_front s w = false) by (apply eqb_zero_not_pos; exact H).
    split; [exact Hf|].
    intros nw Hin. apply classify_back; assumption.
  - intros p H. apply eqb_zero_not_pos. exact H.
Qed.

Lemma on_line_is_back_witness :
  (dot (vsub (vdiv (vadd (p1 on_axis) (p2 on_axis)) 2) (p1 axis)) (forward axis) =? 0) = true /\
  In on_axis (snd (classify axis [axis; on_axis])) /\
  in_front_point axis (V2 5 0) = false.
Proof.
  split; [vm_compute; reflexivity|].
  destruct (on_line_is_back axis) as [Hw Hp].
  split.
  - apply (Hw on_axis); [vm_compute; reflexivity | right; left; reflexivity].
  - apply Hp. vm_compute. reflexivity.
Defined.

(** C10: [intersection] tests only the parameter [t] along its first
    argument: for [seg_a] = (-1,0)-(1,0) and [seg_b] = (0,1)-(0,2) it
    returns the crossing point of the two lines although that point lies
    before the start of [seg_b] (its parameter [u] along [seg_b] is
    negative and it is below both endpoints of [seg_b]). *)
Theorem intersection_ignores_u : exists a b pt,
  intersection a b = Some pt /\
  ((0 <? param_t a b) && (param_t a b <? 1)) = true /\
  (param_u a b <? 0) = true /\
  ((y pt <? y (p1 b)) && (y pt <? y (p2 b))) = true.
Proof.
  exists seg_a, seg_b, (V2 0 0).
  vm_compute. repeat split; reflexivity.
Qed.

(** * Further properties of the code *)

(** ** Geometry *)

(** A viewer standing on a wall's first endpoint is never in front of it,
    whatever the wall's stored normal (even infinite or NaN coordinates). *)
Theorem in_front_point_own_p1 : forall w, in_front_point w (p1 w) = false.
Proof.
  intros w. unfold in_front_point, dot, vsub; simpl.
  apply zero_or_nan_not_pos, add_zero_or_nan; apply mul_zero_or_nan;
    match goal with |- context [Prim2SF (?a - ?a)%float] =>
      destruct (sub_self_sf a) as [H | H]; rewrite H; exact I end.
Qed.

(** A wall never intersects itself: [intersection w w] is [None] for every
    wall, so a pivot never splits a copy of itself. *)
Theorem intersection_self_none : forall w, intersection w w = None.
Proof.
  intros w. unfold intersection, param_t.
  assert (Hd : Prim2SF (denominator w w) = S754_zero false \/
               Prim2SF (denominator w w) = S754_nan).
  { unfold denominator.
    rewrite (mul_comm_float (y (p1 w) - y (p2 w))%float). apply sub_self_sf. }
  destruct Hd as [H0 | Hn].
  - assert (E : denominator w w = 0%float)
      by (apply Prim2SF_inj; rewrite H0; symmetry; apply Prim2SF_zero).
    rewrite E. reflexivity.
  - rewrite (nan_not_lt _ _ Hn). simpl.
    rewrite (zero_or_nan_not_pos _); [reflexivity|].
    rewrite (div_nan _ _ Hn). exact I.
Qed.

(** ** Partition builder *)

Open Scope nat_scope.

(** The classification loop puts exactly the walls in front of the pivot
    in the front list and the others in the back list, losing and adding
    none. *)
Theorem classify_sides : forall slice_plane new_walls,
  Forall (fun w => in_front slice_plane w = true) (fst (classify slice_plane new_walls)) /\
  Forall (fun w => in_front slice_plane w = false) (snd (classify slice_plane new_walls)) /\
  Permutation (fst (classify slice_plane new_walls) ++ snd (classify slice_plane new_walls))
    new_walls.
Proof.
  intros s nw. split; [|split; [|apply classify_perm]];
    induction nw as [|w rest IH]; simpl; try constructor;
    destruct (classify s rest) as [fr bk]; simpl in *;
    destruct (in_front s w) eqn:E; simpl; auto.
Qed.

Lemma splice_all_origin_aux : forall s ws w',
  In w' (splice_all s ws) ->
  exists w, In w ws /\ forward w' = forward w /\ (p1 w' = p1 w \/ p2 w' = p2 w).
Proof.
  intros s ws w'; induction ws as [|w rest IH]; simpl; [tauto|].
  destruct (intersection w s) as [i|]; simpl.
  - intros [<- | [<- | Hin]].
    + exists w; simpl; auto.
    + exists w; simpl; auto.
    + destruct (IH Hin) as (v & Hv & Hf & He). exists v; auto.
  - intros [<- | Hin].
    + exists w; auto.
    + destruct (IH Hin) as (v & Hv & Hf & He). exists v; auto.
Qed.

(** Every wall of the builder's working list comes from a wall after the
    pivot: it keeps that wall's normal and one of its endpoints; when the
    pivot's line splits nothing, the working list is the input unchanged. *)
Theorem splice_all_origin : forall slice_plane walls,
  Forall (fun w' => exists w, In w walls /\ forward w' = forward w /\
                               (p1 w' = p1 w \/ p2 w' = p2 w))
    (splice_all slice_plane walls) /\
  (count_splits slice_plane walls = 0 -> splice_all slice_plane walls = walls).
Proof.
  intros s ws. split.
  - apply Forall_forall. intros w' Hin. eapply splice_all_origin_aux; eauto.
  - induction ws as [|w rest IH]; simpl; [reflexivity|].
    destruct (intersection w s); [discriminate|].
    intros H. rewrite IH by exact H. reflexivity.
Qed.

Lemma tree_create_inv : forall fuel walls o,
  tree_create fuel walls = Some o ->
  (forall w rest, walls = w :: rest -> exists t, o = Some t /\ segment t = w) /\
  (walls = [] -> o = None) /\
  length walls <= opt_size o /\
  (forall s, In s (opt_segments o) -> exists w, In w walls /\ forward s = forward w).
Proof.
  induction fuel as [|f IH]; intros ws o H; [discriminate|].
  destruct ws as [|w [|w2 rest]].
  - simpl in H. injection H as <-. repeat split; try discriminate; simpl; auto.
    intros s [].
  - simpl in H. injection H as <-. repeat split.
    + intros w' rest' E. injection E as E1 E2; subst. eexists; split; reflexivity.
    + discriminate.
    + simpl. lia.
    + simpl. intros s [<- | []]. exists w; simpl; auto.
  - cbn [tree_create] in H.
    pose proof (classify_perm w (splice_all w (w2 :: rest))) as HP.
    pose proof (splice_all_length w (w2 :: rest)) as HL.
    pose proof (splice_all_origin_aux w (w2 :: rest)) as HO.
    destruct (classify w (splice_all w (w2 :: rest))) as [fr bk]; simpl in HP.
    destruct (tree_create f bk) as [ob|] eqn:Eb; [|discriminate].
    destruct (tree_create f fr) as [of|] eqn:Ef; [|discriminate].
    injection H as <-.
    destruct (IH _ _ Eb) as (_ & _ & Hbl & Hbs).
    destruct (IH _ _ Ef) as (_ & _ & Hfl & Hfs).
    repeat split.
    + intros w' rest' E. injection E as E1 E2; subst. eexists; split; reflexivity.
    + discriminate.
    + apply Permutation_length in HP. rewrite length_app in HP.
      change (opt_size (Some (MkBSPTree ob of w))) with (S (opt_size ob + opt_size of)).
      simpl length in *. lia.
    + intros s Hs.
      change (opt_segments (Some (MkBSPTree ob of w)))
        with (w :: opt_segments ob ++ opt_segments of) in Hs.
      destruct Hs as [E | Hs]; [subst; eexists; split; [left; reflexivity | reflexivity]|].
      apply in_app_or in Hs as [Hs | Hs].
      * destruct (Hbs s Hs) as (v & Hv & Hf).
        destruct (HO v) as (u & Hu & Hfu & _).
        { apply (Permutation_in _ HP). apply in_or_app. right. exact Hv. }
        exists u. split; [right; exact Hu | congruence].
      * destruct (Hfs s Hs) as (v & Hv & Hf).
        destruct (HO v) as (u & Hu & Hfu & _).
        { apply (Permutation_in _ HP). apply in_or_app. left. exact Hv. }
        exists u. split; [right; exact Hu | congruence].
Qed.

(** A call of the builder that returns gives [None] exactly for an empty
    list and otherwise a tree whose root holds the first wall; the tree has
    at least as many nodes as the input has walls (splitting only adds). *)
Theorem tree_create_root_size : forall fuel walls o,
  tree_create fuel walls = Some o ->
  (walls = [] <-> o = None) /\
  (forall w rest, walls = w :: rest -> exists t, o = Some t /\ segment t = w) /\
  length walls <= opt_size o.
Proof.
  intros fuel ws o H.
  destruct (tree_create_inv fuel ws o H) as (Hr & He & Hl & _).
  split; [|split; assumption].
  split; [exact He|].
  intros ->. destruct ws as [|w rest]; [reflexivity|].
  destruct (Hr w rest eq_refl) as (t & Ht & _). discriminate Ht.
Qed.

Lemma tree_create_root_size_witness :
  exists o, tree_create 5 [seg_a; seg_b] = Some o /\ 2 <= opt_size o.
Proof.
  destruct (tree_create 5 [seg_a; seg_b]) as [o|] eqn:E.
  - exists o. split; [reflexivity|].
    destruct (tree_create_root_size 5 [seg_a; seg_b] o E) as (_ & _ & Hl). exact Hl.
  - vm_compute in E. discriminate E.
Defined.

(** Every segment of a built tree carries the normal of one of the input
    walls: splitting copies normals, it never derives new ones. *)
Theorem tree_create_normals : forall fuel walls o,
  tree_create fuel walls = Some o ->
  forall s, In s (opt_segments o) -> exists w, In w walls /\ forward s = forward w.
Proof.
  intros fuel ws o H. apply (tree_create_inv fuel ws o H).
Qed.

Lemma tree_create_normals_witness :
  exists o, tree_create 5 [pivot_c7; wall_c7] = Some o /\
  forall s, In s (opt_segments o) -> exists w, In w [pivot_c7; wall_c7] /\ forward s = forward w.
Proof.
  destruct (tree_create 5 [pivot_c7; wall_c7]) as [o|] eqn:E.
  - exists o. split; [reflexivity|]. apply (tree_create_normals 5 _ o E).
  - vm_compute in E. discriminate E.
Defined.

(** ** Traversal *)

Lemma sides_agree_node : forall r bh fr seg c1 c2,
  sides_agree r (MkBSPTree bh fr seg) c1 c2 =
  r (in_front_point seg c1) (in_front_point seg c2) &&
  match bh with None => true | Some t => sides_agree r t c1 c2 end &&
  match fr with None => true | Some t => sides_agree r t c1 c2 end.
Proof. reflexivity. Qed.

(** Two viewers that are on opposite sides of every node's segment get
    render orders that are each other's reverse. *)
Theorem render_order_opposite : forall t c1 c2,
  sides_agree xorb t c1 c2 = true ->
  get_render_order t c2 = rev (get_render_order t c1).
Proof.
  unfold get_render_order, get_render_walls.
  fix IH 1.
  intros [bh fr seg] c1 c2 H.
  rewrite sides_agree_node in H.
  apply andb_prop in H as [H Hf]. apply andb_prop in H as [Hx Hb].
  rewrite !render_node_unfold.
  assert (Eb : get_render_walls bh [] c2 = rev (get_render_walls bh [] c1))
    by (destruct bh as [b|]; [apply IH; exact Hb | reflexivity]).
  assert (Ef : get_render_walls fr [] c2 = rev (get_render_walls fr [] c1))
    by (destruct fr as [f|]; [apply IH; exact Hf | reflexivity]).
  rewrite Eb, Ef.
  destruct (in_front_point seg c1), (in_front_point seg c2); try discriminate Hx; simpl;
    rewrite !rev_app_distr; simpl; rewrite <- !app_assoc; reflexivity.
Qed.

Lemma render_order_opposite_witness :
  sides_agree xorb (MkBSPTree (Some (MkBSPTree None None on_axis)) None axis) (V2 0 1) (V2 0 (-1))
    = true /\
  get_render_order (MkBSPTree (Some (MkBSPTree None None on_axis)) None axis) (V2 0 (-1)) =
  rev (get_render_order (MkBSPTree (Some (MkBSPTree None None on_axis)) None axis) (V2 0 1)).
Proof.
  assert (H : sides_agree xorb (MkBSPTree (Some (MkBSPTree None None on_axis)) None axis)
                (V2 0 1) (V2 0 (-1)) = true) by (vm_compute; reflexivity).
  split; [exact H|]. apply render_order_opposite. exact H.
Defined.

(** The render order depends on the viewer only through the side it is on
    at each node: two viewers on the same side of every node's segment get
    the same order. *)
Theorem render_order_same_sides : forall t c1 c2,
  sides_agree Bool.eqb t c1 c2 = true ->
  get_render_order t c1 = get_render_order t c2.
Proof.
  unfold get_render_order, get_render_walls.
  fix IH 1.
  intros [bh fr seg] c1 c2 H.
  rewrite sides_agree_node in H.
  apply andb_prop in H as [H Hf]. apply andb_prop in H as [Hx Hb].
  rewrite !render_node_unfold.
  assert (Eb : get_render_walls bh [] c1 = get_render_walls bh [] c2)
    by (destruct bh as [b|]; [apply IH; exact Hb | reflexivity]).
  assert (Ef : get_render_walls fr [] c1 = get_render_walls fr [] c2)
    by (destruct fr as [f|]; [apply IH; exact Hf | reflexivity]).
  rewrite Eb, Ef. apply Bool.eqb_prop in Hx. rewrite Hx. reflexivity.
Qed.

Lemma render_order_same_sides_witness :
  sides_agree Bool.eqb (MkBSPTree (Some (MkBSPTree None None on_axis)) None axis) (V2 0 1) (V2 7 3)
    = true /\
  get_render_order (MkBSPTree (Some (MkBSPTree None None on_axis)) None axis) (V2 0 1) =
  get_render_order (MkBSPTree (Some (MkBSPTree None None on_axis)) None axis) (V2 7 3).
Proof.
  assert (H : sides_agree Bool.eqb (MkBSPTree (Some (MkBSPTree None None on_axis)) None axis)
                (V2 0 1) (V2 7 3) = true) by (vm_compute; reflexivity).
  split; [exact H|]. apply render_order_same_sides. exact H.
Defined.

(** ** Map loading *)

Open Scope string_scope.
Open Scope list_scope.

Lemma load_lines_app : forall pf st l1 l2,
  load_lines pf st (l1 ++ l2) =
  match load_lines pf st l1 with None => None | Some st' => load_lines pf st' l2 end.
Proof.
  intros pf st l1; revert st; induction l1 as [|l rest IH]; intros st l2; simpl; [reflexivity|].
  destruct (load_line pf st l); [apply IH | reflexivity].
Qed.

Lemma parse_all_none : forall A (parse : string -> option A) fields f,
  In f fields -> parse f = None -> parse_all parse fields = None.
Proof.
  intros A parse fields f; induction fields as [|g rest IH]; simpl; [tauto|].
  intros [<- | Hin] Hf.
  - rewrite Hf. reflexivity.
  - destruct (parse g); [rewrite IH by assumption; reflexivity | reflexivity].
Qed.

Lemma parse_all_length : forall A (parse : string -> option A) fields l,
  parse_all parse fields = Some l -> length l = length fields.
Proof.
  intros A parse fields; induction fields as [|g rest IH]; simpl; intros l H.
  - injection H as <-. reflexivity.
  - destruct (parse g); [|discriminate].
    destruct (parse_all parse rest) as [l'|] eqn:E; [|discriminate].
    injection H as <-. simpl. rewrite (IH l' eq_refl). reflexivity.
Qed.

(** Before the marker, the loop only appends vertices. *)
Lemma load_vertex_phase : forall pf vl st,
  ~ In "walls"%string vl -> walls_seen st = false ->
  load_lines pf st vl =
  match parse_all (parse_vertex pf) vl with
  | None => None
  | Some vs => Some (MkLoadState (out st) (verticies st ++ vs) false)
  end.
Proof.
  intros pf vl; induction vl as [|l rest IH]; intros [o vs seen] Hn Hs; simpl in Hs; subst seen.
  - simpl. rewrite app_nil_r. reflexivity.
  - assert (Hl : String.eqb l "walls" = false)
      by (apply String.eqb_neq; intros E; apply Hn; left; exact E).
    simpl. unfold load_line; simpl. rewrite Hl.
    destruct (parse_vertex pf l) as [v|]; [|reflexivity].
    rewrite IH by (simpl; auto; intros H; apply Hn; right; exact H).
    simpl. destruct (parse_all (parse_vertex pf) rest); [|reflexivity].
    rewrite <- app_assoc. reflexivity.
Qed.

(** After the marker, every line is a wall. *)
Lemma load_wall_phase : forall pf wl st,
  walls_seen st = true ->
  load_lines pf st wl =
  match parse_all (parse_wall (verticies st)) wl with
  | None => None
  | Some ws => Some (MkLoadState (MkMap (walls (out st) ++ ws)) (verticies st) true)
  end.
Proof.
  intros pf wl; induction wl as [|l rest IH]; intros [o vs seen] Hs; simpl in Hs; subst seen.
  - simpl. rewrite app_nil_r. destruct o; reflexivity.
  - simpl. unfold load_line; simpl.
    destruct (parse_wall vs l) as [w|]; [|reflexivity].
    rewrite IH by reflexivity. simpl.
    destruct (parse_all (parse_wall vs) rest); [|reflexivity].
    rewrite <- app_assoc. reflexivity.
Qed.

(** A map file is read in two phases: the lines before the first [walls]
    line are vertices, every line after it is a pair of vertex indices
    making one wall, in file order; the first failing line panics. *)
Theorem from_lines_phases : forall pf vl wl,
  ~ In "walls"%string vl ->
  from_lines pf (vl ++ "walls"%string :: wl) =
  match parse_all (parse_vertex pf) vl with
  | None => None
  | Some vs =>
      match parse_all (parse_wall vs) wl with
      | None => None
      | Some ws => Some (MkMap ws)
      end
  end.
Proof.
  intros pf vl wl Hn. unfold from_lines.
  rewrite load_lines_app, load_vertex_phase by (assumption || reflexivity).
  destruct (parse_all (parse_vertex pf) vl) as [vs|]; [|reflexivity].
  simpl. rewrite ?String.eqb_refl.
  rewrite load_wall_phase by reflexivity. simpl.
  destruct (parse_all (parse_wall vs) wl); reflexivity.
Qed.

Lemma from_lines_phases_witness :
  ~ In "walls"%string ["0 0"; "1 0"] /\
  from_lines small_f64 (["0 0"; "1 0"] ++ "walls" :: ["1 2"]) =
  Some (MkMap [Wall_new (V2 0 0) (V2 1 0)]).
Proof.
  assert (H : ~ In "walls"%string ["0 0"; "1 0"])
    by (simpl; intros [E | [E | []]]; discriminate E).
  split; [exact H|].
  rewrite (from_lines_phases small_f64 _ _ H). vm_compute. reflexivity.
Defined.

(** A file with no [walls] line loads (when it does) to a map without
    walls, whose tree is [None]: [main]'s [unwrap] then panics. *)
Theorem from_lines_no_marker : forall pf lines m fuel,
  ~ In "walls" lines -> from_lines pf lines = Some m ->
  walls m = [] /\ generate_tree (S fuel) m = Some None.
Proof.
  intros pf lines m fuel Hn H. unfold from_lines in H.
  rewrite load_vertex_phase in H by (assumption || reflexivity).
  destruct (parse_all (parse_vertex pf) lines); [|discriminate].
  injection H as <-. split; reflexivity.
Qed.

Lemma from_lines_no_marker_witness :
  ~ In "walls" ["0 0"; "1 0"] /\ from_lines small_f64 ["0 0"; "1 0"] = Some (MkMap []) /\
  walls (MkMap []) = [] /\ generate_tree 1 (MkMap []) = Some None.
Proof.
  assert (H : ~ In "walls" ["0 0"; "1 0"]) by (simpl; intros [E | [E | []]]; discriminate E).
  assert (E : from_lines small_f64 ["0 0"; "1 0"] = Some (MkMap [])) by (vm_compute; reflexivity).
  split; [exact H|]. split; [exact E|].
  apply (from_lines_no_marker small_f64 ["0 0"; "1 0"] (MkMap []) 0 H E).
Defined.

(** The marker is read once: a second [walls] line is parsed as indices
    and panics. *)
Theorem from_lines_second_marker : forall pf vl wl,
  ~ In "walls" vl -> In "walls" wl -> from_lines pf (vl ++ "walls" :: wl) = None.
Proof.
  intros pf vl wl Hn Hw. rewrite from_lines_phases by exact Hn.
  destruct (parse_all (parse_vertex pf) vl) as [vs|]; [|reflexivity].
  rewrite (parse_all_none _ _ wl "walls" Hw); reflexivity.
Qed.

Lemma from_lines_second_marker_witness :
  ~ In "walls" ["0 0"] /\ In "walls" ["1 1"; "walls"] /\
  from_lines small_f64 (["0 0"] ++ "walls" :: ["1 1"; "walls"]) = None.
Proof.
  assert (H1 : ~ In "walls" ["0 0"]) by (simpl; intros [E | []]; discriminate E).
  assert (H2 : In "walls" ["1 1"; "walls"]) by (right; left; reflexivity).
  split; [exact H1|]. split; [exact H2|].
  apply from_lines_second_marker; assumption.
Defined.

(** A wall line whose first two indices include 0 or a number above the
    vertex count panics (the 1-based index underflows or is out of
    bounds). *)
Theorem from_lines_bad_index : forall pf vl wl vs l i0 i1 r,
  ~ In "walls" vl ->
  parse_all (parse_vertex pf) vl = Some vs ->
  In l wl ->
  parse_all parse_usize (split_space l) = Some (i0 :: i1 :: r) ->
  (i0 = 0%N \/ i1 = 0%N \/ length vs < N.to_nat i0 \/ length vs < N.to_nat i1) ->
  from_lines pf (vl ++ "walls" :: wl) = None.
Proof.
  intros pf vl wl vs l i0 i1 r Hn Hv Hl Hp Hbad.
  rewrite from_lines_phases, Hv by exact Hn.
  rewrite (parse_all_none _ _ wl l Hl); [reflexivity|].
  unfold parse_wall. rewrite Hp.
  assert (Hz : forall i, (i = 0%N \/ length vs < N.to_nat i) -> vertex_at vs i = None).
  { intros i [-> | Hi]; [reflexivity|].
    unfold vertex_at. destruct (N.eqb_spec i 0) as [-> | Hne]; [reflexivity|].
    apply nth_error_None. lia. }
  destruct Hbad as [H | [H | [H | H]]].
  - rewrite (Hz i0) by auto. reflexivity.
  - rewrite (Hz i1) by auto. destruct (vertex_at vs i0); reflexivity.
  - rewrite (Hz i0) by auto. reflexivity.
  - rewrite (Hz i1) by auto. destruct (vertex_at vs i0); reflexivity.
Qed.

Lemma from_lines_bad_index_witness :
  from_lines small_f64 (["0 0"; "1 0"] ++ "walls" :: ["1 3"]) = None.
Proof.
  apply (from_lines_bad_index small_f64 ["0 0"; "1 0"] ["1 3"] [V2 0 0; V2 1 0] "1 3" 1 3 []).
  - simpl. intros [E | [E | []]]; discriminate E.
  - vm_compute. reflexivity.
  - left. reflexivity.
  - vm_compute. reflexivity.
  - right. right. right. simpl. lia.
Defined.

(** A vertex line (before the marker) that is not a list of numbers, or
    has fewer than two of them, panics. *)
Theorem from_lines_short_vertex : forall pf vl l rest,
  ~ In "walls" vl -> l <> "walls" ->
  (parse_all pf (split_space l) = None \/
   exists cs, parse_all pf (split_space l) = Some cs /\ length cs < 2) ->
  from_lines pf (vl ++ l :: rest) = None.
Proof.
  intros pf vl l rest Hn Hl Hbad. unfold from_lines.
  rewrite load_lines_app, load_vertex_phase by (assumption || reflexivity).
  destruct (parse_all (parse_vertex pf) vl); [|reflexivity].
  simpl. unfold load_line; simpl.
  rewrite (proj2 (String.eqb_neq l "walls") Hl).
  unfold parse_vertex.
  destruct Hbad as [H | (cs & H & Hlen)]; rewrite H; [reflexivity|].
  destruct cs as [|c0 [|c1 cs]]; [reflexivity | reflexivity | simpl in Hlen; lia].
Qed.

Lemma from_lines_short_vertex_witness :
  from_lines small_f64 (["0 0"] ++ "1" :: ["walls"]) = None.
Proof.
  apply from_lines_short_vertex.
  - simpl. intros [E | []]; discriminate E.
  - discriminate.
  - right. exists [1%float]. split; [vm_compute; reflexivity | simpl; lia].
Defined.

(** A loaded map has exactly one wall per line after the marker. *)
Theorem from_lines_wall_count : forall pf vl wl m,
  ~ In "walls" vl -> from_lines pf (vl ++ "walls" :: wl) = Some m ->
  length (walls m) = length wl.
Proof.
  intros pf vl wl m Hn H. rewrite from_lines_phases in H by exact Hn.
  destruct (parse_all (parse_vertex pf) vl) as [vs|]; [|discriminate].
  destruct (parse_all (parse_wall vs) wl) as [ws|] eqn:E; [|discriminate].
  injection H as <-. simpl. eapply parse_all_length; exact E.
Qed.

Lemma from_lines_wall_count_witness :
  ~ In "walls" ["0 0"; "1 0"; "0 1"] /\
  from_lines small_f64 (["0 0"; "1 0"; "0 1"] ++ "walls" :: ["1 2"; "2 3"]) =
    Some (MkMap [Wall_new (V2 0 0) (V2 1 0); Wall_new (V2 1 0) (V2 0 1)]) /\
  length (walls (MkMap [Wall_new (V2 0 0) (V2 1 0); Wall_new (V2 1 0) (V2 0 1)])) = 2.
Proof.
  assert (H : ~ In "walls" ["0 0"; "1 0"; "0 1"])
    by (simpl; intros [E | [E | [E | []]]]; discriminate E).
  assert (E : from_lines small_f64 (["0 0"; "1 0"; "0 1"] ++ "walls" :: ["1 2"; "2 3"]) =
              Some (MkMap [Wall_new (V2 0 0) (V2 1 0); Wall_new (V2 1 0) (V2 0 1)]))
    by (vm_compute; reflexivity).
  split; [exact H|]. split; [exact E|].
  apply (from_lines_wall_count small_f64 _ ["1 2"; "2 3"] _ H E).
Defined.

Lemma str_app_nil_r : forall s, (s ++ EmptyString)%string = s.
Proof. induction s as [|c s IH]; simpl; [reflexivity | rewrite IH; reflexivity]. Qed.

Lemma str_app_assoc : forall a b c, (a ++ (b ++ c))%string = ((a ++ b) ++ c)%string.
Proof. induction a as [|ch a IH]; intros b c; simpl; [reflexivity | rewrite IH; reflexivity]. Qed.

Lemma split_space_aux_concat : forall s cur,
  String.concat " " (split_space_aux s cur) = (cur ++ s)%string /\
  split_space_aux s cur <> [].
Proof.
  induction s as [|c s IH]; intros cur; simpl.
  - rewrite str_app_nil_r. split; [reflexivity | discriminate].
  - destruct (Ascii.eqb_spec c " "%char) as [-> | Hc].
    + destruct (IH EmptyString) as [Hc' Hne]. split; [|discriminate].
      destruct (split_space_aux s EmptyString) as [|f fs]; [contradiction|].
      change (String.concat " " (cur :: f :: fs))
        with (cur ++ " " ++ String.concat " " (f :: fs))%string.
      rewrite Hc'. reflexivity.
    + destruct (IH (cur ++ String c EmptyString)%string) as [Hc' Hne].
      split; [|exact Hne]. rewrite Hc', <- str_app_assoc. reflexivity.
Qed.


(** [line.split(' ')] loses nothing: its fields joined with single
    spaces give the line back, and there is always at least one field. *)
Theorem split_space_roundtrip : forall s,
  String.concat " " (split_space s) = s /\ split_space s <> [].
Proof. intros s. apply split_space_aux_concat. Qed.

(** ** Sublist lengths and traversal depth *)

Open Scope nat_scope.

(** The two sublists of [tree_create] hold the [n - 1] walls after the
    pivot plus one more per split wall; when no wall is split each sublist
    is strictly shorter than the input list. *)
Theorem builder_sublist_lengths : forall slice_plane rest,
  length (fst (classify slice_plane (splice_all slice_plane rest))) +
  length (snd (classify slice_plane (splice_all slice_plane rest)))
  = length rest + count_splits slice_plane rest /\
  (count_splits slice_plane rest = 0 ->
   length (fst (classify slice_plane (splice_all slice_plane rest))) < length (slice_plane :: rest) /\
   length (snd (classify slice_plane (splice_all slice_plane rest))) < length (slice_plane :: rest)).
Proof.
  intros slice_plane rest.
  assert (Hlen : length (fst (classify slice_plane (splice_all slice_plane rest))) +
     length (snd (classify slice_plane (splice_all slice_plane rest)))
     = length rest + count_splits slice_plane rest)
    by (rewrite classify_length, splice_all_length; reflexivity).
  split; [exact Hlen|].
  intros H0. rewrite H0 in Hlen. simpl. lia.
Qed.

Lemma builder_sublist_lengths_witness :
  count_splits axis [on_axis] = 0 /\
  length (fst (classify axis (splice_all axis [on_axis]))) < length [axis; on_axis] /\
  length (snd (classify axis (splice_all axis [on_axis]))) < length [axis; on_axis].
Proof.
  split; [vm_compute; reflexivity|].
  destruct (builder_sublist_lengths axis [on_axis]) as [_ H].
  apply H. vm_compute. reflexivity.
Defined.

(** The traversal, charged one frame per call (the call on an absent child
    included), completes exactly when it is given more frames than the tree
    height, and then returns [get_render_walls]: its calls on present nodes
    nest as deep as the tree is high. *)
Theorem traversal_depth : forall fuel o out camera_pos,
  render_fuel fuel o out camera_pos =
  if opt_height o <? fuel then Some (get_render_walls o out camera_pos) else None.
Proof.
  intros fuel o out camera_pos.
  destruct (Nat.ltb_spec (opt_height o) fuel).
  - apply render_fuel_ok; assumption.
  - apply render_fuel_short; assumption.
Qed.
